(** * Aperture load balancer (scales/loadbalancer/aperture.py)

    A shallow embedding of [MonoClock], [Ema] and [ApertureBalancerSink].
    Python floats are modelled as real numbers, Python ints as [Z], Python
    sets of endpoints as [gset Z].  Every source of nondeterminism
    ([time.time()], [random.choice], the outcome of waiting on an
    asynchronous handle) is an explicit argument. *)

From Stdlib Require Import Reals Lra ZArith Sorting.Sorted.
From stdpp Require Import base list gmap sets.

Open Scope R_scope.

(* ------------------------------------------------------------------ *)
(** ** MonoClock *)

Record MonoClock := { mc_last : R }.

(** [__init__]: [self._last = time.time()]; [now] is that reading. *)
Definition MonoClock_init (now : R) : MonoClock := {| mc_last := now |}.

(** [Sample]: [now] is the value of [time.time()] at the call. *)
Definition MonoClock_Sample (c : MonoClock) (now : R) : MonoClock * R :=
  if Rlt_dec 0 (now - mc_last c) then ({| mc_last := now |}, now)
  else (c, mc_last c).

(** Successive samples for a list of wall-clock readings. *)
Fixpoint MonoClock_run (c : MonoClock) (nows : list R) : list R :=
  match nows with
  | [] => []
  | n :: rest =>
      let '(c', v) := MonoClock_Sample c n in v :: MonoClock_run c' rest
  end.

(* ------------------------------------------------------------------ *)
(** ** Ema *)

Record Ema := { ema_window : R; ema_time : R; ema_value : R }.

(** [Ema(window)]: [_time = -1], [_ema = 0.0]. *)
Definition Ema_init (window : R) : Ema :=
  {| ema_window := window; ema_time := -1; ema_value := 0 |}.

(** [Ema.Update(ts, sample)]: returns the new object state and the
    returned value [self._ema]. *)
Definition Ema_Update (e : Ema) (ts sample : R) : Ema * R :=
  if Req_dec_T (ema_time e) (-1) then
    ({| ema_window := ema_window e; ema_time := ts; ema_value := sample |},
     sample)
  else
    let delta := ts - ema_time e in
    let window :=
      if Req_dec_T (ema_window e) 0 then 0
      else exp (- delta / ema_window e) in
    let v := sample * (1 - window) + ema_value e * window in
    ({| ema_window := ema_window e; ema_time := ts; ema_value := v |}, v).

(* ------------------------------------------------------------------ *)
(** ** ApertureBalancerSink *)

(** A heap node ([self._heap[1:]] entries): its endpoint and whether its
    channel is open. *)
Record HeapNode := { nd_endpoint : Z; nd_open : bool }.

(** The sink properties record ([sink_properties]). *)
Record Config := {
  smoothing_window : R;
  cfg_min_size : nat;
  cfg_min_load : R;
  cfg_max_load : R;
  jitter_min_sec : Z;
  jitter_max_sec : Z }.

(** [ApertureBalancerSink.Builder = SinkProvider(..., smoothing_window = 5,
    min_size = 1, min_load = 0.5, max_load = 2.0, jitter_min_sec = 120,
    jitter_max_sec = 240)]. *)
Definition Builder_defaults : Config :=
  {| smoothing_window := 5; cfg_min_size := 1; cfg_min_load := 1 / 2;
     cfg_max_load := 2; jitter_min_sec := 120; jitter_max_sec := 240 |}.

(** The object state of an [ApertureBalancerSink].  [jitter_wait] is
    [Some e] while a jitter cycle is blocked in [ar.wait()] on the
    expansion of [e]. *)
Record Sink := {
  idle_endpoints : gset Z;
  active_endpoints : gset Z;
  pending_endpoints : gset Z;
  heap : list HeapNode;
  total : Z;
  ema : Ema;
  clock : MonoClock;
  min_size : nat;
  min_load : R;
  max_load : R;
  varz_active : nat;
  varz_idle : nat;
  varz_load_average : option R;
  jitter_wait : option Z }.

Definition set_idle (s : Sink) (x : gset Z) : Sink :=
  {| idle_endpoints := x; active_endpoints := active_endpoints s;
     pending_endpoints := pending_endpoints s; heap := heap s; total := total s;
     ema := ema s; clock := clock s; min_size := min_size s;
     min_load := min_load s; max_load := max_load s;
     varz_active := varz_active s; varz_idle := varz_idle s;
     varz_load_average := varz_load_average s; jitter_wait := jitter_wait s |}.

Definition set_active (s : Sink) (x : gset Z) : Sink :=
  {| idle_endpoints := idle_endpoints s; active_endpoints := x;
     pending_endpoints := pending_endpoints s; heap := heap s; total := total s;
     ema := ema s; clock := clock s; min_size := min_size s;
     min_load := min_load s; max_load := max_load s;
     varz_active := varz_active s; varz_idle := varz_idle s;
     varz_load_average := varz_load_average s; jitter_wait := jitter_wait s |}.

Definition set_pending (s : Sink) (x : gset Z) : Sink :=
  {| idle_endpoints := idle_endpoints s; active_endpoints := active_endpoints s;
     pending_endpoints := x; heap := heap s; total := total s;
     ema := ema s; clock := clock s; min_size := min_size s;
     min_load := min_load s; max_load := max_load s;
     varz_active := varz_active s; varz_idle := varz_idle s;
     varz_load_average := varz_load_average s; jitter_wait := jitter_wait s |}.

Definition set_heap (s : Sink) (x : list HeapNode) : Sink :=
  {| idle_endpoints := idle_endpoints s; active_endpoints := active_endpoints s;
     pending_endpoints := pending_endpoints s; heap := x; total := total s;
     ema := ema s; clock := clock s; min_size := min_size s;
     min_load := min_load s; max_load := max_load s;
     varz_active := varz_active s; varz_idle := varz_idle s;
     varz_load_average := varz_load_average s; jitter_wait := jitter_wait s |}.

(** [self._total], [self._ema] and [self._time] change together in
    [_AdjustAperture]. *)
Definition set_load (s : Sink) (t : Z) (e : Ema) (c : MonoClock) : Sink :=
  {| idle_endpoints := idle_endpoints s; active_endpoints := active_endpoints s;
     pending_endpoints := pending_endpoints s; heap := heap s; total := t;
     ema := e; clock := c; min_size := min_size s;
     min_load := min_load s; max_load := max_load s;
     varz_active := varz_active s; varz_idle := varz_idle s;
     varz_load_average := varz_load_average s; jitter_wait := jitter_wait s |}.

Definition set_load_average (s : Sink) (x : option R) : Sink :=
  {| idle_endpoints := idle_endpoints s; active_endpoints := active_endpoints s;
     pending_endpoints := pending_endpoints s; heap := heap s; total := total s;
     ema := ema s; clock := clock s; min_size := min_size s;
     min_load := min_load s; max_load := max_load s;
     varz_active := varz_active s; varz_idle := varz_idle s;
     varz_load_average := x; jitter_wait := jitter_wait s |}.

Definition set_jitter_wait (s : Sink) (x : option Z) : Sink :=
  {| idle_endpoints := idle_endpoints s; active_endpoints := active_endpoints s;
     pending_endpoints := pending_endpoints s; heap := heap s; total := total s;
     ema := ema s; clock := clock s; min_size := min_size s;
     min_load := min_load s; max_load := max_load s;
     varz_active := varz_active s; varz_idle := varz_idle s;
     varz_load_average := varz_load_average s; jitter_wait := x |}.

(** [_UpdateSizeVarz]. *)
Definition UpdateSizeVarz (s : Sink) : Sink :=
  {| idle_endpoints := idle_endpoints s; active_endpoints := active_endpoints s;
     pending_endpoints := pending_endpoints s; heap := heap s; total := total s;
     ema := ema s; clock := clock s; min_size := min_size s;
     min_load := min_load s; max_load := max_load s;
     varz_active := size (active_endpoints s);
     varz_idle := size (idle_endpoints s);
     varz_load_average := varz_load_average s; jitter_wait := jitter_wait s |}.

(** Boolean forms of the float comparisons used by the source. *)
Definition Rle_b (x y : R) : bool := if Rle_dec x y then true else false.

(** Completion handles: [AsyncResult.Complete()] or the handle returned by
    the base class's [_AddSink] for an endpoint. *)
Inductive Handle := HComplete | HAddSink (e : Z).

(** Modelled from the spec: the base [HeapBalancerSink._AddSink] of
    heap.py (not in this repository's sources), which "appends node to heap
    and sifts" and returns a completion handle.  Heap storage order is kept
    as insertion order; the new node's channel is open. *)
Definition Heap_AddSink (s : Sink) (e : Z) : Sink * Handle :=
  (set_heap s (heap s ++ [{| nd_endpoint := e; nd_open := true |}]), HAddSink e).

(** Modelled from the spec: the base [HeapBalancerSink._RemoveSink] of
    heap.py, which "removes node from heap" (no-op if not present). *)
Definition Heap_RemoveSink (s : Sink) (e : Z) : Sink :=
  set_heap s (filter (fun n => negb (Z.eqb (nd_endpoint n) e)) (heap s)).

(** [_AddSink]. *)
Definition AddSink (s : Sink) (e : Z) : Sink :=
  let num_healthy := length (filter nd_open (heap s)) in
  UpdateSizeVarz
    (if Nat.ltb num_healthy (min_size s) then
       fst (Heap_AddSink (set_active s ({[e]} ∪ active_endpoints s)) e)
     else set_idle s ({[e]} ∪ idle_endpoints s)).

(** [_TryExpandAperture]; [random.choice(endpoints)] is the element at
    position [pick mod len(endpoints)] of [list(self._idle_endpoints)]
    (endpoints are truthy objects, so [any(endpoints)] is non-emptiness).
    Returns the new state, the handle and the added endpoint. *)
Definition TryExpandAperture (s : Sink) (pick : nat) : Sink * Handle * option Z :=
  match elements (idle_endpoints s) with
  | [] => (UpdateSizeVarz s, HComplete, None)
  | endpoints =>
      let new_endpoint := nth (pick mod length endpoints) endpoints 0%Z in
      let s1 := set_active (set_idle s (idle_endpoints s ∖ {[new_endpoint]}))
                           ({[new_endpoint]} ∪ active_endpoints s) in
      let '(s2, added_node) := Heap_AddSink s1 new_endpoint in
      (UpdateSizeVarz s2, added_node, Some new_endpoint)
  end.

(** [_ContractAperture]: the first heap node in storage order whose
    endpoint is not pending. *)
Definition ContractAperture (s : Sink) : Sink :=
  if Nat.ltb (min_size s) (size (active_endpoints s)) then
    match find (fun n => negb (bool_decide (nd_endpoint n ∈ pending_endpoints s)))
               (heap s) with
    | Some n =>
        let e := nd_endpoint n in
        UpdateSizeVarz
          (Heap_RemoveSink
             (set_idle (set_active s (active_endpoints s ∖ {[e]}))
                       ({[e]} ∪ idle_endpoints s)) e)
    | None => s
    end
  else s.

(** [_RemoveSink]. *)
Definition RemoveSink (s : Sink) (e : Z) (pick : nat) : Sink :=
  let s1 := Heap_RemoveSink s e in
  let s2 :=
    if bool_decide (e ∈ active_endpoints s1) then
      fst (fst (TryExpandAperture (set_active s1 (active_endpoints s1 ∖ {[e]})) pick))
    else s1 in
  let s3 :=
    if bool_decide (e ∈ idle_endpoints s2) then
      set_idle s2 (idle_endpoints s2 ∖ {[e]})
    else s2 in
  UpdateSizeVarz s3.

(** [_OnNodeDown(node)], for a node with endpoint [e]. *)
Definition OnNodeDown (s : Sink) (e : Z) (pick : nat) : Sink * Handle :=
  if bool_decide (e ∈ active_endpoints s) then
    let '(s1, ar, _) := TryExpandAperture s pick in (s1, ar)
  else (s, HComplete).

(** [_AdjustAperture(amount)], lines 251-259: update the load counter and
    the EMA, and compute the per-node load (publishing it unless the
    aperture is empty).  [now] is the reading of [time.time()] taken by
    [self._time.Sample()].  Returns the state and [aperture_load]. *)
Definition AdjustLoad (s : Sink) (amount : Z) (now : R) : Sink * R :=
  let t := (total s + amount)%Z in
  let '(c, ts) := MonoClock_Sample (clock s) now in
  let '(e, avg) := Ema_Update (ema s) ts (IZR t) in
  let s1 := set_load s t e c in
  let aperture_size := size (active_endpoints s1) in
  if Nat.eqb aperture_size 0 then (s1, max_load s1)
  else let l := avg / INR aperture_size in (set_load_average s1 (Some l), l).

(** [_AdjustAperture(amount)], lines 260-263: the resize decision. *)
Definition expand_wanted (s : Sink) (aperture_load : R) : bool :=
  Rle_b (max_load s) aperture_load && negb (bool_decide (idle_endpoints s = ∅)).

Definition contract_wanted (s : Sink) (aperture_load : R) : bool :=
  Rle_b aperture_load (min_load s) && Nat.ltb (min_size s) (size (active_endpoints s)).

Definition AdjustAperture (s : Sink) (amount : Z) (now : R) (pick : nat) : Sink :=
  let '(s2, aperture_load) := AdjustLoad s amount now in
  if expand_wanted s2 aperture_load then fst (fst (TryExpandAperture s2 pick))
  else if contract_wanted s2 aperture_load then ContractAperture s2
  else s2.

(** [_OnGet] and [_OnPut]. *)
Definition OnGet (s : Sink) (now : R) (pick : nat) : Sink := AdjustAperture s 1 now pick.
Definition OnPut (s : Sink) (now : R) (pick : nat) : Sink := AdjustAperture s (-1) now pick.

(** How [ar.wait()] ends in [_Jitter]: it returns with no exception on
    [ar], it returns with [ar.exception] set, or it raises. *)
Inductive WaitOutcome := WaitSucceeded | WaitFailed | WaitRaised.

(** [_Jitter] up to [ar.wait()]: expand, and mark the new endpoint as
    pending while the cycle waits. *)
Definition JitterStart (s : Sink) (pick : nat) : Sink :=
  let '(s1, _, endpoint) := TryExpandAperture s pick in
  match endpoint with
  | Some e =>
      set_jitter_wait (set_pending s1 ({[e]} ∪ pending_endpoints s1)) (Some e)
  | None => s1
  end.

(** [_Jitter] from the return of [ar.wait()] on.  On [WaitRaised] the
    exception leaves the [try] block; only the [finally] clause (which
    reschedules the timer) runs. *)
Definition JitterFinish (s : Sink) (o : WaitOutcome) : Sink :=
  match jitter_wait s with
  | None => s
  | Some e =>
      let s1 := set_jitter_wait s None in
      match o with
      | WaitSucceeded =>
          let s2 := ContractAperture s1 in
          set_pending s2 (pending_endpoints s2 ∖ {[e]})
      | WaitFailed => set_pending s1 (pending_endpoints s1 ∖ {[e]})
      | WaitRaised => s1
      end
  end.

(** One whole jitter cycle with nothing interleaved during the wait. *)
Definition Jitter (s : Sink) (pick : nat) (o : WaitOutcome) : Sink :=
  JitterFinish (JitterStart s pick) o.

(** [__init__], before the base class registers any server: [now] is the
    reading of [time.time()] taken by [MonoClock()]. *)
Definition init (cfg : Config) (now : R) : Sink :=
  {| idle_endpoints := ∅; active_endpoints := ∅; pending_endpoints := ∅;
     heap := []; total := 0; ema := Ema_init 5; clock := MonoClock_init now;
     min_size := cfg_min_size cfg; min_load := cfg_min_load cfg;
     max_load := cfg_max_load cfg; varz_active := 0; varz_idle := 0;
     varz_load_average := None; jitter_wait := None |}.

(** Events that reach the balancer.  A jitter cycle is split at its wait so
    that other events may run in between; the timer fires the next cycle
    only after the running one has left [_Jitter]. *)
Inductive Op :=
  | OpAddSink (e : Z)
  | OpRemoveSink (e : Z) (pick : nat)
  | OpNodeDown (e : Z) (pick : nat)
  | OpGet (now : R) (pick : nat)
  | OpPut (now : R) (pick : nat)
  | OpJitterStart (pick : nat)
  | OpJitterFinish (o : WaitOutcome).

Definition exec (s : Sink) (op : Op) : Sink :=
  match op with
  | OpAddSink e => AddSink s e
  | OpRemoveSink e pick => RemoveSink s e pick
  | OpNodeDown e pick => fst (OnNodeDown s e pick)
  | OpGet now pick => OnGet s now pick
  | OpPut now pick => OnPut s now pick
  | OpJitterStart pick =>
      match jitter_wait s with None => JitterStart s pick | Some _ => s end
  | OpJitterFinish o => JitterFinish s o
  end.

Fixpoint exec_all (s : Sink) (ops : list Op) : Sink :=
  match ops with
  | [] => s
  | op :: rest => exec_all (exec s op) rest
  end.

(** The invariant [pending ⊆ active]. *)
Definition pending_in_active (s : Sink) : Prop :=
  pending_endpoints s ⊆ active_endpoints s.

(* ------------------------------------------------------------------ *)
(** ** Runs of the EMA, and the recurrence of the spec *)

(** Values returned by successive [Update(ts, sample)] calls. *)
Fixpoint Ema_run (e : Ema) (l : list (R * R)) : list R :=
  match l with
  | [] => []
  | (ts, x) :: rest =>
      let '(e', v) := Ema_Update e ts x in v :: Ema_run e' rest
  end.

(** The weight as the spec words it: [exp(-Δ/W)] if [W > 0] else [0]. *)
Definition weight_spec (W delta : R) : R :=
  if Rlt_dec 0 W then exp (- delta / W) else 0.

(** The weight the source computes: [0] if [W = 0] else [exp(-Δ/W)]. *)
Definition weight_code (W delta : R) : R :=
  if Req_dec_T W 0 then 0 else exp (- delta / W).

(** The recurrence of the spec: the first call returns its sample, each
    later call returns [x·(1−w) + value·w] with [Δ = ts − last_ts]. *)
Fixpoint ema_rec_go (weight : R -> R -> R) (W last value : R)
    (l : list (R * R)) : list R :=
  match l with
  | [] => []
  | (ts, x) :: rest =>
      let w := weight W (ts - last) in
      let v := x * (1 - w) + value * w in
      v :: ema_rec_go weight W ts v rest
  end.

Definition ema_rec (weight : R -> R -> R) (W : R) (l : list (R * R)) : list R :=
  match l with
  | [] => []
  | (ts, x) :: rest => x :: ema_rec_go weight W ts x rest
  end.

(* ------------------------------------------------------------------ *)
(** ** Concrete configurations and states *)

(** [min_size = 2], the other options at their defaults. *)
Definition cfg_min2 : Config :=
  {| smoothing_window := 5; cfg_min_size := 2; cfg_min_load := 1 / 2;
     cfg_max_load := 2; jitter_min_sec := 120; jitter_max_sec := 240 |}.

(** [smoothing_window = 10], the other options at their defaults. *)
Definition cfg_window10 : Config :=
  {| smoothing_window := 10; cfg_min_size := 1; cfg_min_load := 1 / 2;
     cfg_max_load := 2; jitter_min_sec := 120; jitter_max_sec := 240 |}.

(** Endpoints a = 1, b = 2, c = 3 added in order under [min_size = 2]:
    a and b are active, c is idle. *)
Definition s_abc : Sink :=
  exec_all (init cfg_min2 0) [OpAddSink 1; OpAddSink 2; OpAddSink 3].

(** An operation that removes an endpoint which is currently pending. *)
Definition removes_pending (s : Sink) (op : Op) : Prop :=
  match op with
  | OpRemoveSink e _ => e ∈ pending_endpoints s
  | _ => False
  end.

(** No operation of the sequence removes an endpoint that is pending at
    the point where it runs. *)
Fixpoint no_pending_removal (s : Sink) (ops : list Op) : Prop :=
  match ops with
  | [] => True
  | op :: rest => ~ removes_pending s op /\ no_pending_removal (exec s op) rest
  end.

(** [self._active_endpoints] and [self._idle_endpoints] are disjoint. *)
Definition sets_disjoint (s : Sink) : Prop :=
  active_endpoints s ## idle_endpoints s.

(** The [active] and [idle] gauges show the sizes of the two sets. *)
Definition gauges_match (s : Sink) : Prop :=
  varz_active s = size (active_endpoints s) /\ varz_idle s = size (idle_endpoints s).

(** An operation that adds an endpoint the balancer already knows. *)
Definition adds_known (s : Sink) (op : Op) : Prop :=
  match op with
  | OpAddSink e => e ∈ active_endpoints s ∪ idle_endpoints s
  | _ => False
  end.

Fixpoint no_known_add (s : Sink) (ops : list Op) : Prop :=
  match ops with
  | [] => True
  | op :: rest => ~ adds_known s op /\ no_known_add (exec s op) rest
  end.

(** Number of [Get]s minus number of [Put]s in a sequence of operations. *)
Fixpoint gets_minus_puts (ops : list Op) : Z :=
  match ops with
  | [] => 0
  | OpGet _ _ :: rest => (1 + gets_minus_puts rest)%Z
  | OpPut _ _ :: rest => (-1 + gets_minus_puts rest)%Z
  | _ :: rest => gets_minus_puts rest
  end.

(** [min_size = 0]: every added endpoint goes to the idle set. *)
Definition cfg_min0 : Config :=
  {| smoothing_window := 5; cfg_min_size := 0; cfg_min_load := 1 / 2;
     cfg_max_load := 2; jitter_min_sec := 120; jitter_max_sec := 240 |}.

(** One endpoint, idle, and an empty aperture. *)
Definition s_idle_only : Sink := exec_all (init cfg_min0 0) [OpAddSink 1].

(** Endpoint 1 active with its channel closed, endpoint 3 idle,
    [min_size = 1]. *)
Definition s_down : Sink :=
  {| idle_endpoints := {[3%Z]}; active_endpoints := {[1%Z]};
     pending_endpoints := ∅;
     heap := [{| nd_endpoint := 1; nd_open := false |}];
     total := 0; ema := Ema_init 5; clock := MonoClock_init 0; min_size := 1;
     min_load := 1 / 2; max_load := 2; varz_active := 1; varz_idle := 1;
     varz_load_average := None; jitter_wait := None |}.

(** Largest argument for which [math.exp] is taken to return a float:
    [math.exp(y)] raises [OverflowError] once [y] exceeds
    ln(DBL_MAX) ≈ 709.78, and 709 stays below that. *)
Definition exp_max : R := 709.

(** An [Update] at distance [delta] from the stored timestamp with window
    [W] evaluates [math.exp(-delta / W)] without overflow ([math.exp] is
    not called when [W = 0]). *)
Definition exp_ok (W delta : R) : Prop := W <> 0 -> - delta / W <= exp_max.

(** Every later call of a run from a fresh [Ema(W)] evaluates [math.exp]
    without overflow (the first call takes the first-call branch). *)
Fixpoint exp_ok_go (W last : R) (l : list (R * R)) : Prop :=
  match l with
  | [] => True
  | (ts, _) :: rest => exp_ok W (ts - last) /\ exp_ok_go W ts rest
  end.

Definition exp_ok_run (W : R) (l : list (R * R)) : Prop :=
  match l with
  | [] => True
  | (ts, _) :: rest => exp_ok_go W ts rest
  end.

(** The event that resumes a waiting jitter cycle. *)
Definition is_finish (op : Op) : bool :=
  match op with OpJitterFinish _ => true | _ => false end.

(* ------------------------------------------------------------------ *)
(** ** Facts about the clock and the EMA *)

Lemma MonoClock_Sample_last (c : MonoClock) (now : R) :
  mc_last (fst (MonoClock_Sample c now)) = snd (MonoClock_Sample c now) /\
  mc_last c <= snd (MonoClock_Sample c now).
Proof.
  unfold MonoClock_Sample; destruct (Rlt_dec 0 (now - mc_last c)); simpl; lra.
Qed.

Lemma MonoClock_run_sorted (c : MonoClock) (nows : list R) :
  Sorted Rle (mc_last c :: MonoClock_run c nows).
Proof.
  revert c; induction nows as [|n rest IH]; intros c; simpl.
  - repeat constructor.
  - destruct (MonoClock_Sample c n) as [c' v] eqn:E.
    pose proof (MonoClock_Sample_last c n) as [H1 H2]; rewrite E in H1, H2; simpl in *.
    constructor.
    + specialize (IH c'); rewrite H1 in IH; exact IH.
    + constructor; exact H2.
Qed.


Lemma Ema_run_go (e : Ema) (l : list (R * R)) :
  ema_time e <> -1 -> Forall (fun p => fst p <> -1) l ->
  Ema_run e l = ema_rec_go weight_code (ema_window e) (ema_time e) (ema_value e) l.
Proof.
  revert e; induction l as [|[ts x] rest IH]; intros e He Hl; simpl; [reflexivity|].
  inversion Hl as [|? ? Hts Hrest]; subst; simpl in Hts.
  unfold Ema_Update; destruct (Req_dec_T (ema_time e) (-1)) as [E|_]; [contradiction|].
  f_equal.
  rewrite IH; simpl; [unfold weight_code; reflexivity | exact Hts | exact Hrest].
Qed.

(** ** Claims *)

(** C8: [MonoClock.Sample] re-returns the previous value when the wall
    clock goes backward or stays equal, the returned values never decrease
    (starting from the construction-time reading), and with a construction
    reading of at most 10 the readings 10, 11, 10.5, 12 give 10, 11, 11, 12. *)
Theorem MonoClock_Sample_monotone (t0 : R) (Ht0 : t0 <= 10) :
  (forall (c : MonoClock) (now : R),
      now - mc_last c <= 0 -> MonoClock_Sample c now = (c, mc_last c)) /\
  (forall (c : MonoClock) (nows : list R),
      Sorted Rle (mc_last c :: MonoClock_run c nows)) /\
  MonoClock_run (MonoClock_init t0) [10; 11; 21 / 2; 12] = [10; 11; 11; 12].
Proof.
  split; [|split].
  - intros c now H; unfold MonoClock_Sample.
    destruct (Rlt_dec 0 (now - mc_last c)); [lra|reflexivity].
  - exact MonoClock_run_sorted.
  - unfold MonoClock_run, MonoClock_init, MonoClock_Sample; simpl.
    destruct (Rlt_dec 0 (10 - t0)); simpl.
    + destruct (Rlt_dec 0 (11 - 10)); [simpl|lra].
      destruct (Rlt_dec 0 (21 / 2 - 11)); [lra|simpl].
      destruct (Rlt_dec 0 (12 - 11)); [reflexivity|lra].
    + assert (t0 = 10) by lra; subst t0.
      destruct (Rlt_dec 0 (11 - 10)); [simpl|lra].
      destruct (Rlt_dec 0 (21 / 2 - 11)); [lra|simpl].
      destruct (Rlt_dec 0 (12 - 11)); [reflexivity|lra].
Qed.

Lemma MonoClock_Sample_monotone_witness :
  (10 <= 10) /\
  MonoClock_run (MonoClock_init 10) [10; 11; 21 / 2; 12] = [10; 11; 11; 12].
Proof.
  split; [lra|].
  apply (MonoClock_Sample_monotone 10); lra.
Defined.

(** C7 (as stated, refuted): with a negative window the source still
    weights by [exp(-Δ/W)], while the stated recurrence uses [w = 0] for
    every [W] that is not positive.  Samples (0, 0) then (1, 1) with
    [W = -1]. *)
Lemma Ema_Update_recurrence_counterexample :
  Ema_run (Ema_init (-1)) [(0, 0); (1, 1)] <>
  ema_rec weight_spec (-1) [(0, 0); (1, 1)].
Proof.
  unfold Ema_run, Ema_init, Ema_Update, ema_rec, ema_rec_go, weight_spec; simpl.
  destruct (Req_dec_T (-1) (-1)) as [_|n]; [simpl|lra].
  destruct (Req_dec_T 0 (-1)) as [e|_]; [lra|simpl].
  destruct (Req_dec_T (-1) 0) as [e|_]; [lra|].
  destruct (Rlt_dec 0 (-1)) as [l|_]; [lra|].
  intros H; injection H as H.
  pose proof (exp_pos (- (1 - 0) / -1)) as Hp.
  nra.
Qed.

(** C7 (amended): while the stored timestamp is not the sentinel [-1] and
    [math.exp] does not overflow (every exponent [−Δ/W] is at most
    [exp_max]), a sequence of [Update] calls on a fresh [Ema(W)] follows the
    recurrence: the first call returns its sample, each later one returns
    [x·(1−w) + value·w] with [Δ = ts − last_ts], where [w = 0] if [W = 0]
    and [w = exp(−Δ/W)] for every other [W] (negative ones included).  An
    update at [ts = -1] (that does not overflow) re-arms the first-call
    branch of any [Ema]: the next call returns its own sample. *)
Theorem Ema_Update_recurrence (W : R) (l : list (R * R))
    (Hl : Forall (fun p => fst p <> -1) l) (Hx : exp_ok_run W l) :
  Ema_run (Ema_init W) l = ema_rec weight_code W l /\
  (forall (e : Ema) (x ts' x' : R),
     (ema_time e <> -1 -> exp_ok (ema_window e) (-1 - ema_time e)) ->
     ema_time (fst (Ema_Update e (-1) x)) = -1 /\
     snd (Ema_Update (fst (Ema_Update e (-1) x)) ts' x') = x').
Proof.
  split.
  - destruct l as [|[ts x] rest]; [reflexivity|].
    inversion Hl as [|? ? Hts Hrest]; subst; simpl in Hts.
    simpl; unfold Ema_Update at 1; simpl.
    destruct (Req_dec_T (-1) (-1)) as [_|n]; [|lra].
    f_equal. rewrite Ema_run_go; simpl; [reflexivity | exact Hts | exact Hrest].
  - intros e x ts' x' _; unfold Ema_Update.
    destruct (Req_dec_T (ema_time e) (-1)); simpl;
      (split; [reflexivity|]);
      (destruct (Req_dec_T (-1) (-1)) as [_|Hn]; [reflexivity|lra]).
Qed.

Lemma Ema_Update_recurrence_witness :
  (Forall (fun p : R * R => fst p <> -1) [(0, 0); (1, 1)] /\
   exp_ok_run (-1) [(0, 0); (1, 1)]) /\
  Ema_run (Ema_init (-1)) [(0, 0); (1, 1)] = ema_rec weight_code (-1) [(0, 0); (1, 1)].
Proof.
  assert (H : Forall (fun p : R * R => fst p <> -1) [(0, 0); (1, 1)])
    by (repeat constructor; simpl; lra).
  assert (Hx : exp_ok_run (-1) [(0, 0); (1, 1)]).
  { simpl; split; [|exact I].
    unfold exp_ok, exp_max; intros _.
    replace (- (1 - 0) / -1) with 1 by field; lra. }
  split; [split; [exact H|exact Hx]|].
  exact (proj1 (Ema_Update_recurrence (-1) [(0, 0); (1, 1)] H Hx)).
Defined.

(** C9 (as stated, refuted): with [W = 0] an update at the stored
    timestamp replaces the value by the new sample.  [Ema(0)] updated with
    (0, 1) then (0, 2) returns 2, not 1. *)
Lemma Ema_Update_zero_delta_counterexample :
  let e1 := fst (Ema_Update (Ema_init 0) 0 1) in
  snd (Ema_Update e1 0 2) <> ema_value e1.
Proof.
  unfold Ema_Update, Ema_init; simpl.
  destruct (Req_dec_T (-1) (-1)) as [_|n]; [simpl|lra].
  destruct (Req_dec_T 0 (-1)) as [e|_]; [lra|simpl].
  destruct (Req_dec_T 0 0) as [_|n]; [|lra].
  lra.
Qed.

(** C9 (amended): for an EMA whose stored timestamp is not the sentinel
    [-1] (it has received an update at a timestamp other than [-1]) and
    whose window is non-zero, an update at the stored timestamp ([Δ = 0])
    returns and keeps the current value, whatever the sample. *)
Theorem Ema_Update_zero_delta (e : Ema) (ts x : R)
    (Ht : ema_time e <> -1) (Hd : ts = ema_time e) (HW : ema_window e <> 0) :
  snd (Ema_Update e ts x) = ema_value e /\
  ema_value (fst (Ema_Update e ts x)) = ema_value e.
Proof.
  unfold Ema_Update.
  destruct (Req_dec_T (ema_time e) (-1)) as [E|_]; [contradiction|].
  destruct (Req_dec_T (ema_window e) 0) as [E|_]; [contradiction|].
  subst ts; replace (- (ema_time e - ema_time e) / ema_window e) with 0
    by (field; exact HW).
  rewrite exp_0; simpl; split; ring.
Qed.

Lemma Ema_Update_zero_delta_witness :
  let e1 := fst (Ema_Update (Ema_init 5) 0 1) in
  (ema_time e1 <> -1 /\ 0 = ema_time e1 /\ ema_window e1 <> 0) /\
  snd (Ema_Update e1 0 7) = ema_value e1.
Proof.
  assert (Hs : fst (Ema_Update (Ema_init 5) 0 1) =
               {| ema_window := 5; ema_time := 0; ema_value := 1 |}).
  { unfold Ema_Update, Ema_init; simpl.
    destruct (Req_dec_T (-1) (-1)) as [_|n]; [reflexivity|lra]. }
  cbv zeta; rewrite Hs; simpl.
  split; [split; [lra|split; [reflexivity|lra]]|].
  apply (Ema_Update_zero_delta {| ema_window := 5; ema_time := 0; ema_value := 1 |} 0 7);
    simpl; lra.
Defined.



(* ------------------------------------------------------------------ *)
(** ** Facts about the balancer's endpoint sets *)

Lemma TryExpandAperture_sets (s : Sink) (pick : nat) :
  let '(s', _, eo) := TryExpandAperture s pick in
  pending_endpoints s' = pending_endpoints s /\
  jitter_wait s' = jitter_wait s /\
  active_endpoints s ⊆ active_endpoints s' /\
  (forall e, eo = Some e -> e ∈ active_endpoints s').
Proof.
  unfold TryExpandAperture.
  destruct (elements (idle_endpoints s)) as [|x xs]; simpl.
  - split; [reflexivity|split; [reflexivity|split; [set_solver|discriminate]]].
  - split; [reflexivity|split; [reflexivity|split; [set_solver|]]].
    intros e [= <-]; set_solver.
Qed.

Lemma TryExpandAperture_pending_in_active (s : Sink) (pick : nat) :
  pending_in_active s -> pending_in_active (fst (fst (TryExpandAperture s pick))).
Proof.
  unfold pending_in_active; intros H.
  pose proof (TryExpandAperture_sets s pick) as Hs.
  destruct (TryExpandAperture s pick) as [[s' h] eo]; simpl.
  destruct Hs as [-> [_ [Ha _]]]; set_solver.
Qed.

Lemma ContractAperture_sets (s : Sink) :
  pending_endpoints (ContractAperture s) = pending_endpoints s /\
  jitter_wait (ContractAperture s) = jitter_wait s /\
  (active_endpoints (ContractAperture s) = active_endpoints s \/
   (exists x, (x ∉ pending_endpoints s) /\
    active_endpoints (ContractAperture s) = active_endpoints s ∖ {[x]})).
Proof.
  unfold ContractAperture.
  destruct (Nat.ltb _ _); [|auto].
  destruct (find _ (heap s)) as [n|] eqn:Hf; [|auto].
  apply find_some in Hf as [_ Hp].
  apply negb_true_iff, bool_decide_eq_false in Hp.
  simpl; split; [reflexivity|split; [reflexivity|right]].
  exists (nd_endpoint n); split; [exact Hp|reflexivity].
Qed.

Lemma ContractAperture_pending_in_active (s : Sink) :
  pending_in_active s -> pending_in_active (ContractAperture s).
Proof.
  unfold pending_in_active; intros H.
  destruct (ContractAperture_sets s) as [-> [_ [-> | [x [Hx ->]]]]]; set_solver.
Qed.

Lemma AdjustLoad_sets (s : Sink) (amount : Z) (now : R) :
  pending_endpoints (fst (AdjustLoad s amount now)) = pending_endpoints s /\
  active_endpoints (fst (AdjustLoad s amount now)) = active_endpoints s /\
  idle_endpoints (fst (AdjustLoad s amount now)) = idle_endpoints s /\
  jitter_wait (fst (AdjustLoad s amount now)) = jitter_wait s.
Proof.
  unfold AdjustLoad.
  destruct (MonoClock_Sample _ _) as [c ts].
  destruct (Ema_Update _ _ _) as [e avg]; simpl.
  destruct (Nat.eqb _ 0); simpl; auto.
Qed.

Lemma AdjustAperture_pending_in_active (s : Sink) (amount : Z) (now : R) (pick : nat) :
  pending_in_active s -> pending_in_active (AdjustAperture s amount now pick).
Proof.
  intros H; unfold AdjustAperture.
  pose proof (AdjustLoad_sets s amount now) as [Hp [Ha _]].
  destruct (AdjustLoad s amount now) as [s2 l]; simpl in *.
  assert (H2 : pending_in_active s2)
    by (unfold pending_in_active in *; rewrite Hp, Ha; exact H).
  destruct (expand_wanted s2 l); [apply TryExpandAperture_pending_in_active; exact H2|].
  destruct (contract_wanted s2 l); [apply ContractAperture_pending_in_active|]; exact H2.
Qed.

Lemma AddSink_pending_in_active (s : Sink) (e : Z) :
  pending_in_active s -> pending_in_active (AddSink s e).
Proof.
  unfold pending_in_active, AddSink; intros H.
  destruct (Nat.ltb _ _); simpl; set_solver.
Qed.

Lemma RemoveSink_pending_in_active (s : Sink) (e : Z) (pick : nat) :
  pending_in_active s -> e ∉ pending_endpoints s ->
  pending_in_active (RemoveSink s e pick).
Proof.
  intros H He.
  assert (Hfin : forall s2 : Sink,
    pending_endpoints s2 = pending_endpoints s ->
    active_endpoints s ∖ {[e]} ⊆ active_endpoints s2 ->
    pending_in_active
      (UpdateSizeVarz
         (if bool_decide (e ∈ idle_endpoints s2)
          then set_idle s2 (idle_endpoints s2 ∖ {[e]}) else s2))).
  { intros s2 Hp Ha; unfold pending_in_active in *.
    destruct (bool_decide _); simpl; set_solver. }
  unfold RemoveSink; apply Hfin; destruct (bool_decide _); simpl;
    try reflexivity; try set_solver.
  - pose proof (TryExpandAperture_sets
                  (set_active (Heap_RemoveSink s e) (active_endpoints s ∖ {[e]})) pick)
      as Hs.
    destruct (TryExpandAperture _ pick) as [[s' h] eo]; simpl in *.
    destruct Hs as [Hp _]; exact Hp.
  - pose proof (TryExpandAperture_sets
                  (set_active (Heap_RemoveSink s e) (active_endpoints s ∖ {[e]})) pick)
      as Hs.
    destruct (TryExpandAperture _ pick) as [[s' h] eo]; simpl in *.
    destruct Hs as [_ [_ [Ha _]]]; exact Ha.
Qed.

Lemma OnNodeDown_pending_in_active (s : Sink) (e : Z) (pick : nat) :
  pending_in_active s -> pending_in_active (fst (OnNodeDown s e pick)).
Proof.
  intros H; unfold OnNodeDown.
  destruct (bool_decide _); [|exact H].
  pose proof (TryExpandAperture_pending_in_active s pick H) as H'.
  destruct (TryExpandAperture s pick) as [[s' h] eo]; exact H'.
Qed.

Lemma JitterStart_pending_in_active (s : Sink) (pick : nat) :
  pending_in_active s -> pending_in_active (JitterStart s pick).
Proof.
  unfold pending_in_active, JitterStart; intros H.
  pose proof (TryExpandAperture_sets s pick) as Hs.
  destruct (TryExpandAperture s pick) as [[s' h] eo].
  destruct Hs as [Hp [_ [Ha Hn]]].
  destruct eo as [e|]; simpl; [|set_solver].
  specialize (Hn e eq_refl); set_solver.
Qed.

Lemma JitterFinish_pending_in_active (s : Sink) (o : WaitOutcome) :
  pending_in_active s -> pending_in_active (JitterFinish s o).
Proof.
  intros H; unfold JitterFinish.
  destruct (jitter_wait s) as [e|]; [|exact H].
  assert (H1 : pending_in_active (set_jitter_wait s None)) by exact H.
  destruct o; unfold pending_in_active in *; simpl.
  - pose proof (ContractAperture_pending_in_active _ H1) as H2.
    unfold pending_in_active in H2; set_solver.
  - set_solver.
  - exact H1.
Qed.

Lemma exec_pending_in_active (s : Sink) (op : Op) :
  pending_in_active s -> ~ removes_pending s op -> pending_in_active (exec s op).
Proof.
  intros H Hop; destruct op as [e|e pick|e pick|now pick|now pick|pick|o]; simpl.
  - apply AddSink_pending_in_active; exact H.
  - apply RemoveSink_pending_in_active; [exact H|exact Hop].
  - apply OnNodeDown_pending_in_active; exact H.
  - apply AdjustAperture_pending_in_active; exact H.
  - apply AdjustAperture_pending_in_active; exact H.
  - destruct (jitter_wait s); [exact H|apply JitterStart_pending_in_active; exact H].
  - apply JitterFinish_pending_in_active; exact H.
Qed.

(** C1 (code bug): [_OnNodeDown] does not discard the downed endpoint from
    [self._active_endpoints], although its docstring says it is removed;
    it only calls [_TryExpandAperture].  From a, b active and c idle,
    marking a down leaves a active next to c, with three active
    endpoints, and returns the expansion's handle. *)
Theorem OnNodeDown_keeps_endpoint_active :
  (1%Z ∈ active_endpoints (fst (OnNodeDown s_abc 1 0))) /\
  (3%Z ∈ active_endpoints (fst (OnNodeDown s_abc 1 0))) /\
  size (active_endpoints (fst (OnNodeDown s_abc 1 0))) = 3%nat /\
  snd (OnNodeDown s_abc 1 0) = HAddSink 3.
Proof.
  split; [apply (bool_decide_unpack _); vm_compute; reflexivity|].
  split; [apply (bool_decide_unpack _); vm_compute; reflexivity|].
  split; vm_compute; reflexivity.
Qed.

(** C2 (code bug): in [_Jitter] the [self._pending_endpoints.discard]
    runs only when [ar.wait()] returns; if the wait raises, only the
    [finally] clause runs and the new endpoint stays pending.  From a, b
    active and c idle, a cycle that expands to c removes c from the
    pending set when the wait returns (with or without an exception on
    the handle), and keeps it there when the wait raises. *)
Theorem Jitter_wait_raised_keeps_pending :
  (3%Z ∈ pending_endpoints (Jitter s_abc 0 WaitRaised)) /\
  (3%Z ∉ pending_endpoints (Jitter s_abc 0 WaitFailed)) /\
  (3%Z ∉ pending_endpoints (Jitter s_abc 0 WaitSucceeded)).
Proof.
  split; [apply (bool_decide_unpack _); vm_compute; reflexivity|].
  split; apply (bool_decide_unpack _); vm_compute; reflexivity.
Qed.

(** C3 (as stated, refuted): a jitter cycle blocked on the expansion of c,
    followed by [_RemoveSink(c)], leaves c pending but no longer active. *)
Lemma pending_in_active_counterexample :
  ~ pending_in_active (exec_all s_abc [OpJitterStart 0; OpRemoveSink 3 0]).
Proof.
  assert (Hp : 3%Z ∈ pending_endpoints (exec_all s_abc [OpJitterStart 0; OpRemoveSink 3 0]))
    by (apply (bool_decide_unpack _); vm_compute; reflexivity).
  assert (Ha : 3%Z ∉ active_endpoints (exec_all s_abc [OpJitterStart 0; OpRemoveSink 3 0]))
    by (apply (bool_decide_unpack _); vm_compute; reflexivity).
  unfold pending_in_active; set_solver.
Qed.

(** C3 (amended): [pending ⊆ active] is preserved along every sequence of
    operations (additions, removals, node-down events, gets, puts and the
    two halves of jitter cycles, interleaved in any order) in which no
    [_RemoveSink] is applied to an endpoint that is pending at that point. *)
Theorem pending_in_active_invariant (s : Sink) (ops : list Op)
    (H : pending_in_active s) (Hops : no_pending_removal s ops) :
  pending_in_active (exec_all s ops).
Proof.
  revert s H Hops; induction ops as [|op rest IH]; intros s H Hops; simpl in *.
  - exact H.
  - destruct Hops as [Hop Hrest].
    apply IH; [apply exec_pending_in_active|]; assumption.
Qed.

Lemma pending_in_active_invariant_witness :
  (pending_in_active s_abc /\
   no_pending_removal s_abc [OpJitterStart 0; OpRemoveSink 1 0; OpJitterFinish WaitSucceeded]) /\
  pending_in_active
    (exec_all s_abc [OpJitterStart 0; OpRemoveSink 1 0; OpJitterFinish WaitSucceeded]).
Proof.
  assert (H0 : pending_endpoints s_abc = ∅) by (vm_compute; reflexivity).
  assert (H1 : 1%Z ∉ pending_endpoints (exec s_abc (OpJitterStart 0)))
    by (apply (bool_decide_unpack _); vm_compute; reflexivity).
  assert (H : pending_in_active s_abc) by (unfold pending_in_active; rewrite H0; set_solver).
  assert (Hops : no_pending_removal s_abc
                   [OpJitterStart 0; OpRemoveSink 1 0; OpJitterFinish WaitSucceeded]).
  { simpl; split; [tauto|split; [exact H1|split; [tauto|exact I]]]. }
  split; [split; [exact H|exact Hops]|].
  exact (pending_in_active_invariant s_abc _ H Hops).
Defined.

(** C4 (code bug): [__init__] builds its EMA as [Ema(5)] and never reads
    the [smoothing_window] option that the Builder declares, although it
    reads [min_size], [min_load], [max_load] and the jitter bounds from
    the same record.  The window is 5 for every configuration; with
    [smoothing_window = 10] it differs from the configured value. *)
Theorem init_ema_window_ignores_config :
  (forall (cfg : Config) (now : R), ema_window (ema (init cfg now)) = 5) /\
  ema_window (ema (init cfg_window10 0)) <> smoothing_window cfg_window10.
Proof.
  split; [reflexivity|].
  simpl; lra.
Qed.

(* ------------------------------------------------------------------ *)
(** ** Facts about load adjustment *)

Lemma Rle_b_spec (x y : R) : Rle_b x y = true <-> x <= y.
Proof. unfold Rle_b; destruct (Rle_dec x y); split; intros; auto; discriminate. Qed.

Lemma expand_wanted_spec (s : Sink) (l : R) :
  expand_wanted s l = true <-> max_load s <= l /\ idle_endpoints s <> ∅.
Proof.
  unfold expand_wanted; rewrite andb_true_iff, Rle_b_spec, negb_true_iff.
  rewrite bool_decide_eq_false; reflexivity.
Qed.

Lemma contract_wanted_spec (s : Sink) (l : R) :
  contract_wanted s l = true <->
  l <= min_load s /\ (min_size s < size (active_endpoints s))%nat.
Proof.
  unfold contract_wanted; rewrite andb_true_iff, Rle_b_spec, Nat.ltb_lt; reflexivity.
Qed.

Lemma TryExpandAperture_load (s : Sink) (pick : nat) :
  total (fst (fst (TryExpandAperture s pick))) = total s /\
  ema (fst (fst (TryExpandAperture s pick))) = ema s.
Proof.
  unfold TryExpandAperture; destruct (elements (idle_endpoints s)); simpl; auto.
Qed.

Lemma ContractAperture_load (s : Sink) :
  total (ContractAperture s) = total s /\ ema (ContractAperture s) = ema s.
Proof.
  unfold ContractAperture; destruct (Nat.ltb _ _); [|auto].
  destruct (find _ _); simpl; auto.
Qed.

Lemma AdjustLoad_spec (s : Sink) (amount : Z) (now : R) :
  let s2 := fst (AdjustLoad s amount now) in
  let l := snd (AdjustLoad s amount now) in
  active_endpoints s2 = active_endpoints s /\ idle_endpoints s2 = idle_endpoints s /\
  max_load s2 = max_load s /\ min_load s2 = min_load s /\ min_size s2 = min_size s /\
  total s2 = (total s + amount)%Z /\
  ema s2 = fst (Ema_Update (ema s) (snd (MonoClock_Sample (clock s) now))
                           (IZR (total s + amount))) /\
  (size (active_endpoints s) = 0%nat ->
     l = max_load s /\ varz_load_average s2 = varz_load_average s) /\
  (size (active_endpoints s) <> 0%nat -> varz_load_average s2 = Some l).
Proof.
  unfold AdjustLoad.
  destruct (MonoClock_Sample (clock s) now) as [c ts] eqn:Ec.
  destruct (Ema_Update (ema s) ts (IZR (total s + amount))) as [e avg] eqn:Ee; simpl.
  destruct (Nat.eqb (size (active_endpoints s)) 0) eqn:E; simpl.
  - apply Nat.eqb_eq in E.
    repeat split; intros; try (rewrite Ee; reflexivity); try contradiction; reflexivity.
  - apply Nat.eqb_neq in E.
    repeat split; intros; try (rewrite Ee; reflexivity); try contradiction; reflexivity.
Qed.

Lemma AdjustAperture_load (s : Sink) (amount : Z) (now : R) (pick : nat) :
  total (AdjustAperture s amount now pick) = (total s + amount)%Z /\
  ema (AdjustAperture s amount now pick) =
    fst (Ema_Update (ema s) (snd (MonoClock_Sample (clock s) now))
                    (IZR (total s + amount))).
Proof.
  pose proof (AdjustLoad_spec s amount now) as (_ & _ & _ & _ & _ & Ht & He & _).
  unfold AdjustAperture.
  destruct (AdjustLoad s amount now) as [s2 l]; simpl in *.
  destruct (expand_wanted s2 l);
    [destruct (TryExpandAperture_load s2 pick) as [-> ->]; split; assumption|].
  destruct (contract_wanted s2 l);
    [destruct (ContractAperture_load s2) as [-> ->]|]; split; assumption.
Qed.

(** C5 (as stated, refuted): the total is not clamped.  On a fresh
    balancer with default options, a [Put] with no prior [Get] drives the
    total to -1 and the EMA, fed the raw total, to -1. *)
Lemma AdjustAperture_unclamped_counterexample :
  total (OnPut (init Builder_defaults 0) 1 0) = (-1)%Z /\
  ema_value (ema (OnPut (init Builder_defaults 0) 1 0)) < 0.
Proof.
  unfold OnPut.
  destruct (AdjustAperture_load (init Builder_defaults 0) (-1) 1 0) as [Ht He].
  rewrite Ht, He; split; [reflexivity|].
  unfold Ema_Update; simpl.
  destruct (Req_dec_T (-1) (-1)) as [_|n]; [simpl|exfalso; apply n; reflexivity].
  replace (0 + -1)%Z with (-1)%Z by reflexivity; lra.
Qed.

(** C5 (amended): [_AdjustAperture(amount)] stores [total + amount] and
    feeds exactly that integer, unclamped (negative when Puts outnumber
    Gets), as the sample of the EMA update at the clock's sample. *)
Theorem AdjustAperture_feeds_raw_total (s : Sink) (amount : Z) (now : R) (pick : nat) :
  total (AdjustAperture s amount now pick) = (total s + amount)%Z /\
  ema (AdjustAperture s amount now pick) =
    fst (Ema_Update (ema s) (snd (MonoClock_Sample (clock s) now))
                    (IZR (total s + amount))).
Proof. exact (AdjustAperture_load s amount now pick). Qed.

(** C6: one [Get] or [Put] applies at most one resize to the state left by
    the load update: an expansion when the per-node load is at least
    [max_load] and some endpoint is idle, otherwise a contraction when it is
    at most [min_load] and the aperture is larger than [min_size], otherwise
    none.  With an empty aperture the per-node load is [max_load] and the
    [load_average] gauge is left as it was; otherwise the gauge receives the
    per-node load. *)
Theorem AdjustAperture_at_most_one_resize (s : Sink) (amount : Z) (now : R) (pick : nat) :
  let s2 := fst (AdjustLoad s amount now) in
  let l := snd (AdjustLoad s amount now) in
  (size (active_endpoints s) = 0%nat ->
     l = max_load s /\ varz_load_average s2 = varz_load_average s) /\
  (size (active_endpoints s) <> 0%nat -> varz_load_average s2 = Some l) /\
  ((max_load s <= l /\ idle_endpoints s <> ∅ /\
    AdjustAperture s amount now pick = fst (fst (TryExpandAperture s2 pick))) \/
   (~ (max_load s <= l /\ idle_endpoints s <> ∅) /\
    l <= min_load s /\ (min_size s < size (active_endpoints s))%nat /\
    AdjustAperture s amount now pick = ContractAperture s2) \/
   (~ (max_load s <= l /\ idle_endpoints s <> ∅) /\
    ~ (l <= min_load s /\ (min_size s < size (active_endpoints s))%nat) /\
    AdjustAperture s amount now pick = s2)).
Proof.
  pose proof (AdjustLoad_spec s amount now) as (Ha & Hi & Hmax & Hmin & Hsz & _ & _ & H0 & H1).
  cbv zeta in *.
  split; [exact H0|split; [exact H1|]].
  unfold AdjustAperture.
  destruct (AdjustLoad s amount now) as [s2 l]; simpl in *.
  pose proof (expand_wanted_spec s2 l) as He.
  pose proof (contract_wanted_spec s2 l) as Hc.
  rewrite Hi, Hmax in He; rewrite Ha, Hmin, Hsz in Hc.
  destruct (expand_wanted s2 l).
  - left; split; [apply He; reflexivity|split; [apply He; reflexivity|reflexivity]].
  - assert (Hne : ~ (max_load s <= l /\ idle_endpoints s <> ∅))
      by (intros Hx; apply He in Hx; discriminate).
    right; destruct (contract_wanted s2 l).
    + left; split; [exact Hne|split; [apply Hc; reflexivity|
                                      split; [apply Hc; reflexivity|reflexivity]]].
    + right; split; [exact Hne|split; [|reflexivity]].
      intros Hx; apply Hc in Hx; discriminate.
Qed.

(* ------------------------------------------------------------------ *)
(** ** Further properties of the balancer *)

Lemma TryExpandAperture_shape (s : Sink) (pick : nat) :
  let '(s', h, eo) := TryExpandAperture s pick in
  pending_endpoints s' = pending_endpoints s /\
  total s' = total s /\ ema s' = ema s /\ min_size s' = min_size s /\
  jitter_wait s' = jitter_wait s /\ gauges_match s' /\
  match eo with
  | None => idle_endpoints s = ∅ /\ h = HComplete /\
            active_endpoints s' = active_endpoints s /\
            idle_endpoints s' = idle_endpoints s
  | Some e => e ∈ idle_endpoints s /\ h = HAddSink e /\
              active_endpoints s' = {[e]} ∪ active_endpoints s /\
              idle_endpoints s' = idle_endpoints s ∖ {[e]}
  end.
Proof.
  unfold TryExpandAperture.
  destruct (elements (idle_endpoints s)) as [|x xs] eqn:El.
  - apply elements_empty_iff in El; apply leibniz_equiv in El.
    simpl; repeat split; auto.
  - assert (Hin : nth (pick mod length (x :: xs)) (x :: xs) 0%Z ∈ idle_endpoints s).
    { apply elem_of_elements; rewrite El; apply list_elem_of_In, nth_In.
      apply Nat.mod_upper_bound; simpl; lia. }
    revert Hin; generalize (nth (pick mod length (x :: xs)) (x :: xs) 0%Z).
    intros e Hin; simpl; repeat split; auto.
Qed.

Lemma ContractAperture_shape (s : Sink) :
  pending_endpoints (ContractAperture s) = pending_endpoints s /\
  total (ContractAperture s) = total s /\ ema (ContractAperture s) = ema s /\
  min_size (ContractAperture s) = min_size s /\
  jitter_wait (ContractAperture s) = jitter_wait s /\
  (ContractAperture s = s \/
   ((min_size s < size (active_endpoints s))%nat /\
    exists x, (x ∉ pending_endpoints s) /\
    active_endpoints (ContractAperture s) = active_endpoints s ∖ {[x]} /\
    idle_endpoints (ContractAperture s) = {[x]} ∪ idle_endpoints s /\
    gauges_match (ContractAperture s))).
Proof.
  unfold ContractAperture.
  destruct (Nat.ltb (min_size s) (size (active_endpoints s))) eqn:Elt;
    [|repeat split; auto].
  apply Nat.ltb_lt in Elt.
  destruct (find _ (heap s)) as [n|] eqn:Hf; [|repeat split; auto].
  apply find_some in Hf as [_ Hp].
  apply negb_true_iff, bool_decide_eq_false in Hp.
  simpl; repeat split; auto.
  right; split; [exact Elt|].
  exists (nd_endpoint n); repeat split; auto.
Qed.

Lemma AdjustLoad_frame (s : Sink) (amount : Z) (now : R) :
  varz_active (fst (AdjustLoad s amount now)) = varz_active s /\
  varz_idle (fst (AdjustLoad s amount now)) = varz_idle s.
Proof.
  unfold AdjustLoad.
  destruct (MonoClock_Sample _ _) as [c ts].
  destruct (Ema_Update _ _ _) as [e avg]; simpl.
  destruct (Nat.eqb _ 0); simpl; auto.
Qed.

Lemma AddSink_shape (s : Sink) (e : Z) :
  pending_endpoints (AddSink s e) = pending_endpoints s /\
  total (AddSink s e) = total s /\ min_size (AddSink s e) = min_size s /\
  jitter_wait (AddSink s e) = jitter_wait s /\ gauges_match (AddSink s e) /\
  ((active_endpoints (AddSink s e) = {[e]} ∪ active_endpoints s /\
    idle_endpoints (AddSink s e) = idle_endpoints s) \/
   (active_endpoints (AddSink s e) = active_endpoints s /\
    idle_endpoints (AddSink s e) = {[e]} ∪ idle_endpoints s)).
Proof.
  unfold AddSink; destruct (Nat.ltb _ _); simpl; repeat split; auto.
Qed.

Lemma RemoveSink_shape (s : Sink) (e : Z) (pick : nat) :
  pending_endpoints (RemoveSink s e pick) = pending_endpoints s /\
  total (RemoveSink s e pick) = total s /\
  min_size (RemoveSink s e pick) = min_size s /\
  jitter_wait (RemoveSink s e pick) = jitter_wait s /\
  gauges_match (RemoveSink s e pick) /\
  (((e ∉ active_endpoints s) /\
    active_endpoints (RemoveSink s e pick) = active_endpoints s /\
    idle_endpoints (RemoveSink s e pick) = idle_endpoints s ∖ {[e]}) \/
   (e ∈ active_endpoints s /\ idle_endpoints s = ∅ /\
    active_endpoints (RemoveSink s e pick) = active_endpoints s ∖ {[e]} /\
    idle_endpoints (RemoveSink s e pick) = idle_endpoints s) \/
   (e ∈ active_endpoints s /\ (exists f, f ∈ idle_endpoints s /\
    active_endpoints (RemoveSink s e pick) = {[f]} ∪ (active_endpoints s ∖ {[e]}) /\
    idle_endpoints (RemoveSink s e pick) = (idle_endpoints s ∖ {[f]}) ∖ {[e]}))).
Proof.
  unfold RemoveSink.
  destruct (bool_decide (e ∈ active_endpoints (Heap_RemoveSink s e))) eqn:Ea.
  - apply bool_decide_eq_true in Ea; simpl in Ea.
    pose proof (TryExpandAperture_shape
                  (set_active (Heap_RemoveSink s e) (active_endpoints s ∖ {[e]})) pick)
      as Hs.
    destruct (TryExpandAperture _ pick) as [[s' h] eo]; simpl in Hs |- *.
    destruct Hs as (Hp & Ht & _ & Hm & Hj & _ & Heo).
    destruct (bool_decide (e ∈ idle_endpoints s')) eqn:Ei; simpl;
      rewrite ?Hp, ?Ht, ?Hm, ?Hj; (split; [reflexivity|split; [reflexivity|
        split; [reflexivity|split; [reflexivity|split; [split; reflexivity|right]]]]]);
      destruct eo as [f|]; destruct Heo as (H1 & _ & H3 & H4);
      rewrite ?H3, ?H4.
    + right; split; [exact Ea|exists f; split; [exact H1|split; [reflexivity|]]].
      reflexivity.
    + left; split; [exact Ea|split; [exact H1|split; [reflexivity|]]].
      apply bool_decide_eq_true in Ei; rewrite H4 in Ei; simpl in Ei; set_solver.
    + right; split; [exact Ea|exists f; split; [exact H1|split; [reflexivity|]]].
      apply bool_decide_eq_false in Ei; rewrite H4 in Ei; simpl in Ei.
      apply set_eq; intros y; split; intros Hy; [set_solver|].
      apply elem_of_difference in Hy as [Hy Hne]; exact Hy.
    + left; split; [exact Ea|split; [exact H1|split; reflexivity]].
  - apply bool_decide_eq_false in Ea; simpl in Ea.
    simpl; case_bool_decide as Ei; simpl;
      (split; [reflexivity|split; [reflexivity|
        split; [reflexivity|split; [reflexivity|split; [split; reflexivity|left]]]]]).
    + split; [exact Ea|split; reflexivity].
    + split; [exact Ea|split; [reflexivity|]].
      apply set_eq; intros y; split; intros Hy; [|set_solver].
      apply elem_of_difference; split; [exact Hy|set_solver].
Qed.

Lemma JitterStart_shape (s : Sink) (pick : nat) :
  total (JitterStart s pick) = total s /\
  min_size (JitterStart s pick) = min_size s /\
  gauges_match (JitterStart s pick) /\
  ((active_endpoints (JitterStart s pick) = active_endpoints s /\
    idle_endpoints (JitterStart s pick) = idle_endpoints s) \/
   (exists e, e ∈ idle_endpoints s /\
    active_endpoints (JitterStart s pick) = {[e]} ∪ active_endpoints s /\
    idle_endpoints (JitterStart s pick) = idle_endpoints s ∖ {[e]})).
Proof.
  unfold JitterStart.
  pose proof (TryExpandAperture_shape s pick) as Hs.
  destruct (TryExpandAperture s pick) as [[s' h] eo].
  destruct Hs as (_ & Ht & _ & Hm & _ & Hg & Heo).
  unfold gauges_match in *.
  destruct eo as [e|]; destruct Heo as (H1 & _ & H3 & H4); simpl.
  - split; [exact Ht|split; [exact Hm|split; [exact Hg|]]].
    right; exists e; split; [exact H1|split; assumption].
  - split; [exact Ht|split; [exact Hm|split; [exact Hg|]]].
    left; split; assumption.
Qed.

Lemma JitterFinish_shape (s : Sink) (o : WaitOutcome) :
  total (JitterFinish s o) = total s /\
  min_size (JitterFinish s o) = min_size s /\
  (gauges_match s -> gauges_match (JitterFinish s o)) /\
  ((active_endpoints (JitterFinish s o) = active_endpoints s /\
    idle_endpoints (JitterFinish s o) = idle_endpoints s) \/
   ((min_size s < size (active_endpoints s))%nat /\
    exists x, active_endpoints (JitterFinish s o) = active_endpoints s ∖ {[x]} /\
    idle_endpoints (JitterFinish s o) = {[x]} ∪ idle_endpoints s)).
Proof.
  unfold JitterFinish.
  destruct (jitter_wait s) as [e|];
    [|split; [reflexivity|split; [reflexivity|
      split; [intros Hg; exact Hg|left; split; reflexivity]]]].
  destruct o.
  - pose proof (ContractAperture_shape (set_jitter_wait s None))
      as (_ & Ht & _ & Hm & _ & Hc).
    simpl in *; rewrite Ht, Hm; split; [reflexivity|split; [reflexivity|]].
    destruct Hc as [-> | (Hlt & x & _ & Ha & Hi & Hg)].
    + split; [intros Hg; exact Hg|left; split; reflexivity].
    + split; [intros _; exact Hg|].
      right; split; [exact Hlt|]; exists x; split; assumption.
  - split; [reflexivity|split; [reflexivity|
      split; [intros Hg; exact Hg|left; split; reflexivity]]].
  - split; [reflexivity|split; [reflexivity|
      split; [intros Hg; exact Hg|left; split; reflexivity]]].
Qed.

Lemma exec_total (s : Sink) (op : Op) :
  total (exec s op) = (total s + gets_minus_puts [op])%Z.
Proof.
  destruct op as [e|e pick|e pick|now pick|now pick|pick|o]; cbn [exec gets_minus_puts].
  - pose proof (AddSink_shape s e) as (_ & Ht & _); lia.
  - pose proof (RemoveSink_shape s e pick) as (_ & Ht & _); lia.
  - unfold OnNodeDown; destruct (bool_decide _); [|simpl; lia].
    pose proof (TryExpandAperture_shape s pick) as Hs.
    destruct (TryExpandAperture s pick) as [[s' h] eo]; destruct Hs as (_ & Ht & _); simpl; lia.
  - unfold OnGet; rewrite (proj1 (AdjustAperture_load s 1 now pick)); lia.
  - unfold OnPut; rewrite (proj1 (AdjustAperture_load s (-1) now pick)); lia.
  - destruct (jitter_wait s); [lia|].
    pose proof (JitterStart_shape s pick) as (Ht & _); lia.
  - pose proof (JitterFinish_shape s o) as (Ht & _); lia.
Qed.

Lemma AdjustAperture_cases (s : Sink) (amount : Z) (now : R) (pick : nat) :
  let s2 := fst (AdjustLoad s amount now) in
  AdjustAperture s amount now pick = fst (fst (TryExpandAperture s2 pick)) \/
  AdjustAperture s amount now pick = ContractAperture s2 \/
  AdjustAperture s amount now pick = s2.
Proof.
  unfold AdjustAperture; destruct (AdjustLoad s amount now) as [s2 l]; simpl.
  destruct (expand_wanted s2 l); [auto|].
  destruct (contract_wanted s2 l); auto.
Qed.

Lemma size_difference_singleton (X : gset Z) (x : Z) :
  (size X <= size (X ∖ {[x]}) + 1)%nat.
Proof.
  rewrite size_difference_alt.
  assert (size (X ∩ {[x]}) <= 1)%nat.
  { rewrite <- (size_singleton (C := gset Z) x). apply subseteq_size; set_solver. }
  assert (size (X ∩ {[x]}) <= size X)%nat by (apply subseteq_size; set_solver).
  lia.
Qed.

Lemma AdjustAperture_gauges (s : Sink) (a : Z) (now : R) (pick : nat) :
  gauges_match s -> gauges_match (AdjustAperture s a now pick).
Proof.
  intros H.
  pose proof (AdjustLoad_spec s a now) as (Ha & Hi & _).
  pose proof (AdjustLoad_frame s a now) as [Hva Hvi].
  assert (H2 : gauges_match (fst (AdjustLoad s a now)))
    by (unfold gauges_match in *; rewrite Ha, Hi, Hva, Hvi; exact H).
  destruct (AdjustAperture_cases s a now pick) as [-> | [-> | ->]].
  - pose proof (TryExpandAperture_shape (fst (AdjustLoad s a now)) pick) as Hs.
    destruct (TryExpandAperture _ pick) as [[s' h] eo]; apply Hs.
  - destruct (ContractAperture_shape (fst (AdjustLoad s a now)))
      as (_ & _ & _ & _ & _ & [-> | (_ & x & _ & _ & _ & Hg)]); assumption.
  - exact H2.
Qed.

Lemma AdjustAperture_disjoint (s : Sink) (a : Z) (now : R) (pick : nat) :
  sets_disjoint s -> sets_disjoint (AdjustAperture s a now pick).
Proof.
  unfold sets_disjoint; intros H.
  pose proof (AdjustLoad_spec s a now) as (Ha & Hi & _).
  assert (H2 : active_endpoints (fst (AdjustLoad s a now)) ##
               idle_endpoints (fst (AdjustLoad s a now)))
    by (rewrite Ha, Hi; exact H).
  destruct (AdjustAperture_cases s a now pick) as [-> | [-> | ->]].
  - pose proof (TryExpandAperture_shape (fst (AdjustLoad s a now)) pick) as Hs.
    destruct (TryExpandAperture _ pick) as [[s' h] eo]; simpl.
    destruct Hs as (_ & _ & _ & _ & _ & _ & Heo).
    destruct eo as [f|]; destruct Heo as (_ & _ & -> & ->); set_solver.
  - destruct (ContractAperture_shape (fst (AdjustLoad s a now)))
      as (_ & _ & _ & _ & _ & [-> | (_ & x & _ & -> & -> & _)]); set_solver.
  - exact H2.
Qed.

Lemma exec_gauges (s : Sink) (op : Op) :
  gauges_match s -> gauges_match (exec s op).
Proof.
  intros H; destruct op as [e|e pick|e pick|now pick|now pick|pick|o];
    cbn [exec].
  - apply (AddSink_shape s e).
  - apply (RemoveSink_shape s e pick).
  - unfold OnNodeDown; destruct (bool_decide _); [|exact H].
    pose proof (TryExpandAperture_shape s pick) as Hs.
    destruct (TryExpandAperture s pick) as [[s' h] eo]; apply Hs.
  - apply AdjustAperture_gauges; exact H.
  - apply AdjustAperture_gauges; exact H.
  - destruct (jitter_wait s); [exact H|apply (JitterStart_shape s pick)].
  - apply (JitterFinish_shape s o); exact H.
Qed.

Lemma exec_disjoint (s : Sink) (op : Op) :
  sets_disjoint s -> ~ adds_known s op -> sets_disjoint (exec s op).
Proof.
  intros H Hk;
    destruct op as [e|e pick|e pick|now pick|now pick|pick|o]; cbn [exec].
  - simpl in Hk; unfold sets_disjoint in *.
    destruct (AddSink_shape s e) as (_ & _ & _ & _ & _ & [[-> ->] | [-> ->]]);
      set_solver.
  - unfold sets_disjoint in *.
    destruct (RemoveSink_shape s e pick) as (_ & _ & _ & _ & _ & Hc).
    destruct Hc as [(_ & -> & ->) | [(_ & _ & -> & ->) | (_ & f & _ & -> & ->)]];
      set_solver.
  - unfold OnNodeDown; destruct (bool_decide _); [|exact H].
    unfold sets_disjoint in *.
    pose proof (TryExpandAperture_shape s pick) as Hs.
    destruct (TryExpandAperture s pick) as [[s' h] eo]; simpl.
    destruct Hs as (_ & _ & _ & _ & _ & _ & Heo).
    destruct eo as [f|]; destruct Heo as (_ & _ & -> & ->); set_solver.
  - apply AdjustAperture_disjoint; exact H.
  - apply AdjustAperture_disjoint; exact H.
  - destruct (jitter_wait s); [exact H|].
    unfold sets_disjoint in *.
    destruct (JitterStart_shape s pick) as (_ & _ & _ & [[-> ->] | (f & _ & -> & ->)]);
      set_solver.
  - unfold sets_disjoint in *.
    destruct (JitterFinish_shape s o) as (_ & _ & _ & [[-> ->] | (_ & x & -> & ->)]);
      set_solver.
Qed.

(** ** Further properties *)

(** X1: [_TryExpandAperture] with an empty idle set changes no set and
    returns [(AsyncResult.Complete(), None)]; otherwise it moves one idle
    endpoint [e] into the active set and returns the base class's handle
    for [e] together with [e].  The gauges show the new set sizes and the
    pending set is untouched. *)
Theorem TryExpandAperture_moves_one_idle (s : Sink) (pick : nat) :
  let '(s', h, eo) := TryExpandAperture s pick in
  gauges_match s' /\ pending_endpoints s' = pending_endpoints s /\
  match eo with
  | None => idle_endpoints s = ∅ /\ h = HComplete /\
            active_endpoints s' = active_endpoints s /\
            idle_endpoints s' = idle_endpoints s
  | Some e => e ∈ idle_endpoints s /\ h = HAddSink e /\
              active_endpoints s' = {[e]} ∪ active_endpoints s /\
              idle_endpoints s' = idle_endpoints s ∖ {[e]}
  end.
Proof.
  pose proof (TryExpandAperture_shape s pick) as Hs.
  destruct (TryExpandAperture s pick) as [[s' h] eo].
  destruct Hs as (Hp & _ & _ & _ & _ & Hg & Heo).
  split; [exact Hg|split; [exact Hp|exact Heo]].
Qed.

(** X2: [_ContractAperture] does nothing unless the aperture is larger than
    [min_size]; when it acts it moves exactly one endpoint that is not
    pending from the active set to the idle set, and never leaves fewer
    than [min_size] active endpoints.  The pending set is untouched. *)
Theorem ContractAperture_evicts_one_non_pending (s : Sink) :
  pending_endpoints (ContractAperture s) = pending_endpoints s /\
  ((size (active_endpoints s) <= min_size s)%nat -> ContractAperture s = s) /\
  (ContractAperture s = s \/
   exists x, (x ∉ pending_endpoints s) /\
   active_endpoints (ContractAperture s) = active_endpoints s ∖ {[x]} /\
   idle_endpoints (ContractAperture s) = {[x]} ∪ idle_endpoints s /\
   (min_size s <= size (active_endpoints (ContractAperture s)))%nat).
Proof.
  split; [apply ContractAperture_shape|split].
  - intros Hle; unfold ContractAperture.
    destruct (Nat.ltb (min_size s) (size (active_endpoints s))) eqn:E; [|reflexivity].
    apply Nat.ltb_lt in E; lia.
  - destruct (ContractAperture_shape s) as (_ & _ & _ & _ & _ & [H | (Hlt & x & Hx & Ha & Hi & _)]);
      [left; exact H|right].
    exists x; split; [exact Hx|split; [exact Ha|split; [exact Hi|]]].
    rewrite Ha; pose proof (size_difference_singleton (active_endpoints s) x); lia.
Qed.

(** X3: the active and idle sets stay disjoint along every sequence of
    operations that never re-adds an endpoint the balancer already knows. *)
Theorem sets_disjoint_invariant (s : Sink) (ops : list Op)
    (H : sets_disjoint s) (Hops : no_known_add s ops) :
  sets_disjoint (exec_all s ops).
Proof.
  revert s H Hops; induction ops as [|op rest IH]; intros s H Hops; simpl in *.
  - exact H.
  - destruct Hops as [Hop Hrest].
    apply IH; [apply exec_disjoint|]; assumption.
Qed.

Lemma sets_disjoint_invariant_witness :
  (sets_disjoint s_abc /\
   no_known_add s_abc [OpJitterStart 0; OpRemoveSink 3 0; OpJitterFinish WaitSucceeded]) /\
  sets_disjoint (exec_all s_abc [OpJitterStart 0; OpRemoveSink 3 0; OpJitterFinish WaitSucceeded]).
Proof.
  assert (Ha : active_endpoints s_abc = {[1%Z; 2%Z]}) by (vm_compute; reflexivity).
  assert (Hi : idle_endpoints s_abc = {[3%Z]}) by (vm_compute; reflexivity).
  assert (H : sets_disjoint s_abc) by (unfold sets_disjoint; rewrite Ha, Hi; set_solver).
  assert (Hops : no_known_add s_abc
                   [OpJitterStart 0; OpRemoveSink 3 0; OpJitterFinish WaitSucceeded])
    by (simpl; tauto).
  split; [split; [exact H|exact Hops]|].
  exact (sets_disjoint_invariant s_abc _ H Hops).
Defined.

(** X4: from construction on, after any sequence of operations the
    [active] and [idle] gauges equal the sizes of the two sets. *)
Theorem gauges_match_always (cfg : Config) (now : R) (ops : list Op) :
  gauges_match (exec_all (init cfg now) ops).
Proof.
  assert (Hgen : forall s, gauges_match s -> gauges_match (exec_all s ops)).
  { induction ops as [|op rest IH]; intros s H; simpl; [exact H|].
    apply IH, exec_gauges, H. }
  apply Hgen; split; reflexivity.
Qed.

(** X5: from construction on, the load counter [total] equals the number
    of [Get]s minus the number of [Put]s; no other operation changes it. *)
Theorem total_counts_gets_minus_puts (cfg : Config) (now : R) (ops : list Op) :
  total (exec_all (init cfg now) ops) = gets_minus_puts ops.
Proof.
  assert (Hgen : forall s, total (exec_all s ops) = (total s + gets_minus_puts ops)%Z).
  { induction ops as [|op rest IH]; intros s; simpl exec_all; [simpl; lia|].
    rewrite IH, exec_total.
    destruct op; simpl; lia. }
  rewrite Hgen; reflexivity.
Qed.

Lemma AdjustAperture_floor (s : Sink) (a : Z) (now : R) (pick : nat) :
  (Nat.min (size (active_endpoints s)) (min_size s) <=
   size (active_endpoints (AdjustAperture s a now pick)))%nat.
Proof.
  pose proof (AdjustLoad_spec s a now) as (Ha & _ & _ & _ & Hm & _).
  destruct (AdjustAperture_cases s a now pick) as [-> | [-> | ->]].
  - pose proof (TryExpandAperture_shape (fst (AdjustLoad s a now)) pick) as Hs.
    destruct (TryExpandAperture _ pick) as [[s' h] eo]; simpl.
    destruct Hs as (_ & _ & _ & _ & _ & _ & Heo).
    destruct eo as [f|]; destruct Heo as (_ & _ & -> & _); rewrite Ha;
      [pose proof (subseteq_size (active_endpoints s) ({[f]} ∪ active_endpoints s)
                     ltac:(set_solver))|]; lia.
  - destruct (ContractAperture_shape (fst (AdjustLoad s a now)))
      as (_ & _ & _ & _ & _ & [-> | (Hlt & x & _ & -> & _ & _)]); rewrite ?Ha; [lia|].
    rewrite Ha, Hm in *.
    pose proof (size_difference_singleton (active_endpoints s) x); lia.
  - rewrite Ha; lia.
Qed.

(** X6: no operation other than [_RemoveSink] shrinks the aperture below
    the smaller of its current size and [min_size]; [_RemoveSink] shrinks
    it by at most one endpoint. *)
Theorem aperture_floor (s : Sink) (op : Op) :
  match op with
  | OpRemoveSink _ _ =>
      (size (active_endpoints s) <= size (active_endpoints (exec s op)) + 1)%nat
  | _ =>
      (Nat.min (size (active_endpoints s)) (min_size s) <=
       size (active_endpoints (exec s op)))%nat
  end.
Proof.
  destruct op as [e|e pick|e pick|now pick|now pick|pick|o]; cbn [exec].
  - destruct (AddSink_shape s e) as (_ & _ & _ & _ & _ & [[-> _] | [-> _]]); [|lia].
    pose proof (subseteq_size (active_endpoints s) ({[e]} ∪ active_endpoints s)
                  ltac:(set_solver)); lia.
  - destruct (RemoveSink_shape s e pick) as (_ & _ & _ & _ & _ & Hc).
    destruct Hc as [(_ & -> & _) | [(_ & _ & -> & _) | (_ & f & _ & -> & _)]];
      pose proof (size_difference_singleton (active_endpoints s) e); [lia|lia|].
    pose proof (subseteq_size (active_endpoints s ∖ {[e]})
                  ({[f]} ∪ (active_endpoints s ∖ {[e]})) ltac:(set_solver)); lia.
  - unfold OnNodeDown; destruct (bool_decide _); [|simpl; lia].
    pose proof (TryExpandAperture_shape s pick) as Hs.
    destruct (TryExpandAperture s pick) as [[s' h] eo]; simpl.
    destruct Hs as (_ & _ & _ & _ & _ & _ & Heo).
    destruct eo as [f|]; destruct Heo as (_ & _ & -> & _);
      [pose proof (subseteq_size (active_endpoints s) ({[f]} ∪ active_endpoints s)
                     ltac:(set_solver))|]; lia.
  - apply AdjustAperture_floor.
  - apply AdjustAperture_floor.
  - destruct (jitter_wait s); [lia|].
    destruct (JitterStart_shape s pick) as (_ & _ & _ & [[-> _] | (f & _ & -> & _)]); [lia|].
    pose proof (subseteq_size (active_endpoints s) ({[f]} ∪ active_endpoints s)
                  ltac:(set_solver)); lia.
  - destruct (JitterFinish_shape s o) as (_ & _ & _ & [[-> _] | (Hlt & x & -> & _)]); [lia|].
    pose proof (size_difference_singleton (active_endpoints s) x); lia.
Qed.

(** X7: when the active and idle sets are disjoint, [_RemoveSink(e)]
    leaves [e] in neither set; if [e] was active and an idle endpoint
    exists, the aperture keeps its size (an idle endpoint replaces [e]). *)
Theorem RemoveSink_forgets_endpoint (s : Sink) (e : Z) (pick : nat)
    (H : sets_disjoint s) :
  (e ∉ active_endpoints (RemoveSink s e pick)) /\
  (e ∉ idle_endpoints (RemoveSink s e pick)) /\
  (e ∈ active_endpoints s -> idle_endpoints s <> ∅ ->
   size (active_endpoints (RemoveSink s e pick)) = size (active_endpoints s)).
Proof.
  unfold sets_disjoint in H.
  destruct (RemoveSink_shape s e pick) as (_ & _ & _ & _ & _ & Hc).
  destruct Hc as [(He & -> & ->) | [(He & Hi & -> & ->) | (He & f & Hf & -> & ->)]].
  - split; [exact He|split; [set_solver|intros; contradiction]].
  - split; [set_solver|split; [set_solver|intros _ Hne; contradiction]].
  - split; [set_solver|split; [set_solver|intros _ _]].
    rewrite size_union by set_solver.
    rewrite size_difference by set_solver.
    rewrite size_singleton.
    assert (size ({[e]} : gset Z) <= size (active_endpoints s))%nat
      by (apply subseteq_size; set_solver).
    rewrite size_singleton in *; lia.
Qed.

Lemma RemoveSink_forgets_endpoint_witness :
  sets_disjoint s_abc /\
  (1%Z ∉ active_endpoints (RemoveSink s_abc 1 0)) /\
  (1%Z ∉ idle_endpoints (RemoveSink s_abc 1 0)).
Proof.
  assert (Ha : active_endpoints s_abc = {[1%Z; 2%Z]}) by (vm_compute; reflexivity).
  assert (Hi : idle_endpoints s_abc = {[3%Z]}) by (vm_compute; reflexivity).
  assert (H : sets_disjoint s_abc) by (unfold sets_disjoint; rewrite Ha, Hi; set_solver).
  split; [exact H|].
  destruct (RemoveSink_forgets_endpoint s_abc 1 0 H) as (H1 & H2 & _).
  split; [exact H1|exact H2].
Defined.

(** X8: [MonoClock.Sample] returns, and stores, the larger of the previous
    value and the current wall-clock reading. *)
Theorem MonoClock_Sample_is_max (c : MonoClock) (now : R) :
  snd (MonoClock_Sample c now) = Rmax (mc_last c) now /\
  mc_last (fst (MonoClock_Sample c now)) = Rmax (mc_last c) now.
Proof.
  unfold MonoClock_Sample, Rmax.
  destruct (Rlt_dec 0 (now - mc_last c)); destruct (Rle_dec (mc_last c) now); simpl;
    split; lra.
Qed.

(** X9: an [Ema] built with window 0 returns, and stores, the latest
    sample on every update. *)
Theorem Ema_Update_zero_window (e : Ema) (ts x : R) (H : ema_window e = 0) :
  snd (Ema_Update e ts x) = x /\ ema_value (fst (Ema_Update e ts x)) = x.
Proof.
  unfold Ema_Update.
  destruct (Req_dec_T (ema_time e) (-1)); [simpl; split; reflexivity|].
  destruct (Req_dec_T (ema_window e) 0) as [_|Hn]; [|contradiction].
  simpl; split; ring.
Qed.

Lemma Ema_Update_zero_window_witness :
  ema_window (Ema_init 0) = 0 /\
  snd (Ema_Update (fst (Ema_Update (Ema_init 0) 1 4)) 2 7) = 7.
Proof.
  split; [reflexivity|].
  apply (Ema_Update_zero_window (fst (Ema_Update (Ema_init 0) 1 4)) 2 7).
  unfold Ema_Update, Ema_init; simpl.
  destruct (Req_dec_T (-1) (-1)); reflexivity.
Defined.



Lemma AdjustLoad_wait (s : Sink) (amount : Z) (now : R) :
  jitter_wait (fst (AdjustLoad s amount now)) = jitter_wait s /\
  pending_endpoints (fst (AdjustLoad s amount now)) = pending_endpoints s.
Proof.
  unfold AdjustLoad.
  destruct (MonoClock_Sample _ _) as [c ts].
  destruct (Ema_Update _ _ _) as [e avg]; simpl.
  destruct (Nat.eqb _ 0); simpl; auto.
Qed.

Lemma TryExpandAperture_wait (s : Sink) (pick : nat) :
  jitter_wait (fst (fst (TryExpandAperture s pick))) = jitter_wait s /\
  pending_endpoints (fst (fst (TryExpandAperture s pick))) = pending_endpoints s.
Proof.
  pose proof (TryExpandAperture_shape s pick) as Hs.
  destruct (TryExpandAperture s pick) as [[s' h] eo].
  destruct Hs as (Hp & _ & _ & _ & Hj & _); simpl; auto.
Qed.

Lemma exec_keeps_wait (s : Sink) (op : Op) :
  is_finish op = false -> jitter_wait s <> None ->
  jitter_wait (exec s op) = jitter_wait s /\
  pending_endpoints (exec s op) = pending_endpoints s.
Proof.
  intros Hf Hw.
  destruct op as [e|e pick|e pick|now pick|now pick|pick|o]; cbn [exec].
  - destruct (AddSink_shape s e) as (Hp & _ & _ & Hj & _); auto.
  - destruct (RemoveSink_shape s e pick) as (Hp & _ & _ & Hj & _); auto.
  - unfold OnNodeDown; destruct (bool_decide _); [|simpl; auto].
    pose proof (TryExpandAperture_wait s pick) as Hs.
    destruct (TryExpandAperture s pick) as [[s' h] eo]; exact Hs.
  - unfold OnGet.
    destruct (AdjustLoad_wait s 1 now) as [Hj Hp].
    destruct (AdjustAperture_cases s 1 now pick) as [-> | [-> | ->]];
      [rewrite (proj1 (TryExpandAperture_wait _ pick)),
               (proj2 (TryExpandAperture_wait _ pick))
      |destruct (ContractAperture_shape (fst (AdjustLoad s 1 now)))
         as (Hp' & _ & _ & _ & Hj' & _); rewrite Hp', Hj'|]; auto.
  - unfold OnPut.
    destruct (AdjustLoad_wait s (-1) now) as [Hj Hp].
    destruct (AdjustAperture_cases s (-1) now pick) as [-> | [-> | ->]];
      [rewrite (proj1 (TryExpandAperture_wait _ pick)),
               (proj2 (TryExpandAperture_wait _ pick))
      |destruct (ContractAperture_shape (fst (AdjustLoad s (-1) now)))
         as (Hp' & _ & _ & _ & Hj' & _); rewrite Hp', Hj'|]; auto.
  - destruct (jitter_wait s) eqn:E; [simpl; rewrite E; split; reflexivity|contradiction].
  - discriminate.
Qed.

Lemma exec_all_keeps_wait (s : Sink) (ops : list Op) :
  jitter_wait s <> None -> Forall (fun op => is_finish op = false) ops ->
  jitter_wait (exec_all s ops) = jitter_wait s /\
  pending_endpoints (exec_all s ops) = pending_endpoints s.
Proof.
  revert s; induction ops as [|op rest IH]; intros s Hw Hops; simpl; [auto|].
  inversion Hops as [|? ? Hop Hrest]; subst.
  destruct (exec_keeps_wait s op Hop Hw) as [Hj Hp].
  destruct (IH (exec s op)) as [Hj' Hp']; [rewrite Hj; exact Hw|exact Hrest|].
  rewrite Hj', Hp', Hj, Hp; auto.
Qed.

(** X11: while a jitter cycle waits on [ar.wait()] for endpoint [e] (which
    it marked pending), whatever other events run meanwhile leave the cycle
    waiting and [e] pending; when the cycle resumes, it neither moves [e]
    into nor out of the active or idle set (the contraction skips pending
    endpoints), it stops waiting, and [e] leaves the pending set unless the
    wait raised, in which case the pending set is unchanged. *)
Theorem JitterFinish_spares_waited_endpoint (s : Sink) (e : Z) (ops : list Op)
    (o : WaitOutcome) (Hw : jitter_wait s = Some e) (Hp : e ∈ pending_endpoints s)
    (Hops : Forall (fun op => is_finish op = false) ops) :
  jitter_wait (exec_all s ops) = Some e /\
  e ∈ pending_endpoints (exec_all s ops) /\
  (e ∈ active_endpoints (exec (exec_all s ops) (OpJitterFinish o)) <->
   e ∈ active_endpoints (exec_all s ops)) /\
  (e ∈ idle_endpoints (exec (exec_all s ops) (OpJitterFinish o)) <->
   e ∈ idle_endpoints (exec_all s ops)) /\
  jitter_wait (exec (exec_all s ops) (OpJitterFinish o)) = None /\
  (o <> WaitRaised ->
   pending_endpoints (exec (exec_all s ops) (OpJitterFinish o)) =
   pending_endpoints (exec_all s ops) ∖ {[e]}) /\
  (o = WaitRaised ->
   pending_endpoints (exec (exec_all s ops) (OpJitterFinish o)) =
   pending_endpoints (exec_all s ops)).
Proof.
  destruct (exec_all_keeps_wait s ops ltac:(rewrite Hw; discriminate) Hops)
    as [Hw1 Hp1].
  set (s1 := exec_all s ops) in *.
  rewrite Hw in Hw1; rewrite <- Hp1 in Hp.
  split; [exact Hw1|split; [exact Hp|]].
  cbn [exec]; unfold JitterFinish; rewrite Hw1.
  destruct o.
  - pose proof (ContractAperture_shape (set_jitter_wait s1 None))
      as (Hpc & _ & _ & _ & Hjc & Hc).
    set (c := ContractAperture (set_jitter_wait s1 None)) in *.
    simpl in Hpc, Hjc.
    unfold set_pending; simpl.
    rewrite Hpc, Hjc.
    split; [|split; [|split; [reflexivity|split; [intros _; reflexivity|intros Hd; discriminate]]]].
    + destruct Hc as [-> | (_ & x & Hx & Ha & _ & _)]; [simpl; tauto|].
      simpl in Hx; rewrite Ha; simpl.
      assert (e <> x) by (intros ->; contradiction).
      set_solver.
    + destruct Hc as [-> | (_ & x & Hx & _ & Hi & _)]; [simpl; tauto|].
      simpl in Hx; rewrite Hi; simpl.
      assert (e <> x) by (intros ->; contradiction).
      set_solver.
  - simpl.
    split; [tauto|split; [tauto|split; [reflexivity|split; [intros _; reflexivity|intros Hd; discriminate]]]].
  - simpl.
    split; [tauto|split; [tauto|split; [reflexivity|split; [intros Hd; contradiction|intros _; reflexivity]]]].
Qed.

Lemma JitterFinish_spares_waited_endpoint_witness :
  (jitter_wait (exec s_abc (OpJitterStart 0)) = Some 3%Z /\
   3%Z ∈ pending_endpoints (exec s_abc (OpJitterStart 0)) /\
   Forall (fun op => is_finish op = false) [OpRemoveSink 3 0]) /\
  (3%Z ∈ active_endpoints
          (exec (exec_all (exec s_abc (OpJitterStart 0)) [OpRemoveSink 3 0])
                (OpJitterFinish WaitSucceeded)) <->
   3%Z ∈ active_endpoints (exec_all (exec s_abc (OpJitterStart 0)) [OpRemoveSink 3 0])).
Proof.
  assert (Hw : jitter_wait (exec s_abc (OpJitterStart 0)) = Some 3%Z)
    by (vm_compute; reflexivity).
  assert (Hp : 3%Z ∈ pending_endpoints (exec s_abc (OpJitterStart 0)))
    by (apply (bool_decide_unpack _); vm_compute; reflexivity).
  assert (Hops : Forall (fun op => is_finish op = false) [OpRemoveSink 3 0])
    by (repeat constructor).
  split; [split; [exact Hw|split; [exact Hp|exact Hops]]|].
  exact (proj1 (proj2 (proj2 (JitterFinish_spares_waited_endpoint
           (exec s_abc (OpJitterStart 0)) 3 [OpRemoveSink 3 0] WaitSucceeded Hw Hp Hops)))).
Defined.

(** X12: when the aperture is empty and an idle endpoint exists, the
    per-node load is taken to be [max_load], so every [_OnGet]/[_OnPut]
    adjustment expands the aperture to exactly one endpoint. *)
Theorem AdjustAperture_empty_aperture_expands (s : Sink) (amount : Z) (now : R)
    (pick : nat) (H0 : active_endpoints s = ∅) (Hi : idle_endpoints s <> ∅) :
  size (active_endpoints (AdjustAperture s amount now pick)) = 1%nat.
Proof.
  pose proof (AdjustLoad_spec s amount now) as (Ha & Hi2 & Hmax & _ & _ & _ & _ & Hz & _).
  cbv zeta in *.
  rewrite H0, size_empty in Hz; destruct (Hz eq_refl) as [Hl _].
  unfold AdjustAperture.
  destruct (AdjustLoad s amount now) as [s2 l]; simpl in *.
  assert (He : expand_wanted s2 l = true)
    by (apply expand_wanted_spec; rewrite Hmax, Hi2, Hl; split; [lra|exact Hi]).
  rewrite He.
  pose proof (TryExpandAperture_shape s2 pick) as Hs.
  destruct (TryExpandAperture s2 pick) as [[s' h] eo]; simpl.
  destruct Hs as (_ & _ & _ & _ & _ & _ & Heo).
  destruct eo as [f|]; destruct Heo as (H1 & _ & H3 & _).
  - rewrite H3, Ha, H0, union_empty_r_L. apply (size_singleton (C := gset Z)).
  - rewrite Hi2 in H1; contradiction.
Qed.

Lemma AdjustAperture_empty_aperture_expands_witness :
  active_endpoints s_idle_only = ∅ /\ idle_endpoints s_idle_only <> ∅ /\
  size (active_endpoints (AdjustAperture s_idle_only 1 1 0)) = 1%nat.
Proof.
  assert (H0 : active_endpoints s_idle_only = ∅) by (vm_compute; reflexivity).
  assert (Hi : idle_endpoints s_idle_only = {[1%Z]}) by (vm_compute; reflexivity).
  assert (Hne : idle_endpoints s_idle_only <> ∅) by (rewrite Hi; set_solver).
  split; [exact H0|split; [exact Hne|]].
  exact (AdjustAperture_empty_aperture_expands s_idle_only 1 1 0 H0 Hne).
Defined.

(** X13: [_AddSink] does not check whether the endpoint is already known:
    re-adding an idle endpoint while fewer than [min_size] heap nodes are
    healthy puts it in the active set and leaves it in the idle set. *)
Theorem AddSink_known_idle_becomes_both (s : Sink) (e : Z)
    (Hi : e ∈ idle_endpoints s)
    (Hh : (length (filter nd_open (heap s)) < min_size s)%nat) :
  e ∈ active_endpoints (AddSink s e) /\ e ∈ idle_endpoints (AddSink s e).
Proof.
  unfold AddSink.
  apply Nat.ltb_lt in Hh; rewrite Hh; simpl.
  split; [set_solver|exact Hi].
Qed.

Lemma AddSink_known_idle_becomes_both_witness :
  3%Z ∈ idle_endpoints s_down /\
  (length (filter nd_open (heap s_down)) < min_size s_down)%nat /\
  3%Z ∈ active_endpoints (AddSink s_down 3).
Proof.
  assert (Hi : 3%Z ∈ idle_endpoints s_down) by (simpl; set_solver).
  assert (Hh : (length (filter nd_open (heap s_down)) < min_size s_down)%nat)
    by (simpl; lia).
  split; [exact Hi|split; [exact Hh|]].
  exact (proj1 (AddSink_known_idle_becomes_both s_down 3 Hi Hh)).
Defined.




